(** * LinalgTransformOps: region successors of [ScopeOp] and the verifier of
    [SequenceOp]

    A shallow embedding of lib/Dialects/LinalgTransform/IR/LinalgTransformOps.cpp.
    The file has two functions of interest:

    - [transform::ScopeOp::getSuccessorRegions], the region-branch hook of the
      scoping construct;
    - [verifySequenceOp], which walks a sequencing construct and rejects a
      result that has more than one use.

    Both are written against the host IR framework (operations, regions,
    blocks, values with use lists, the diagnostic engine, the operation
    walker).  The part of that framework the two functions touch is modelled
    first, then the two functions, then the properties. *)

From Stdlib Require Import String Ascii List Arith Bool Lia Permutation PeanoNat.
From Stdlib Require Import ZArith DecimalString.
Import ListNotations.

Set Implicit Arguments.
Local Open Scope string_scope.
Local Open Scope nat_scope.
Local Open Scope list_scope.

(* ================================================================= *)
(** ** The host IR: locations, values, operations *)

(** A source location, as carried by every operation. *)
Inductive Location : Type :=
| UnknownLoc
| FileLineColLoc (file : string) (line col : nat).

(** Operations and blocks are heap objects in the host; a value refers to
    the object that defines it.  The identity of such an object is a number
    here. *)
Definition OpId := nat.
Definition BlockId := nat.

(** An SSA value is either a result of an operation or an argument of a
    block. *)
Record OpResult : Type := mkOpResult {
  getDefiningOp : OpId;
  getResultNumber : nat
}.

Inductive Value : Type :=
| ResultValue (r : OpResult)
| BlockArgument (ownerBlock : BlockId) (argNumber : nat).

Coercion ResultValue : OpResult >-> Value.

Definition Value_eqb (a b : Value) : bool :=
  match a, b with
  | ResultValue (mkOpResult o n), ResultValue (mkOpResult o' n') =>
      Nat.eqb o o' && Nat.eqb n n'
  | BlockArgument k n, BlockArgument k' n' => Nat.eqb k k' && Nat.eqb n n'
  | _, _ => false
  end.

(** A block owns an ordered list of operations; a region is an ordered list
    of blocks; an operation owns its regions.  The tree has no cycles. *)
Record BlockOf (O : Type) : Type := mkBlock {
  blockId : BlockId;
  getNumArguments : nat;
  getOperations : list O
}.

Definition RegionOf (O : Type) : Type := list (BlockOf O).

Unset Elimination Schemes.
Inductive Operation : Type := mkOperation {
  opId : OpId;
  getName : string;
  getLoc : Location;
  getOperands : list Value;
  getNumResults : nat;
  getRegions : list (RegionOf Operation)
}.
Set Elimination Schemes.

Definition Block := BlockOf Operation.
Definition Region := RegionOf Operation.

(** [op->getResults()]: the results of an operation, in result order. *)
Definition getResults (op : Operation) : list OpResult :=
  map (mkOpResult (opId op)) (seq 0 (getNumResults op)).

(** Induction over the operation tree: the property holds of an operation
    when it holds of every operation of every block of every region of it. *)
Section OperationInduction.
Variable P : Operation -> Prop.
Hypothesis P_op :
  forall id name loc operands n regions,
    Forall (Forall (fun b : Block => Forall P (getOperations b))) regions ->
    P (mkOperation id name loc operands n regions).

Fixpoint Operation_ind (op : Operation) : P op :=
  match op with
  | mkOperation id name loc operands n regions =>
      P_op id name loc operands n
        ((fix regs (rs : list Region) :
            Forall (Forall (fun b : Block => Forall P (getOperations b))) rs :=
            match rs with
            | [] => Forall_nil _
            | r :: rs' =>
                Forall_cons r
                  ((fix blks (bs : list Block) :
                      Forall (fun b : Block => Forall P (getOperations b)) bs :=
                      match bs with
                      | [] => Forall_nil _
                      | b :: bs' =>
                          Forall_cons b
                            ((fix ops (os : list Operation) : Forall P os :=
                                match os with
                                | [] => Forall_nil _
                                | o :: os' =>
                                    Forall_cons o (Operation_ind o) (ops os')
                                end) (getOperations b))
                            (blks bs')
                      end) r)
                  (regs rs')
            end) regions)
  end.
End OperationInduction.

(** The operations of a tree in the order the host's post-order walk reaches
    them: the operations nested in an operation, region by region and block
    by block, then the operation itself. *)
Fixpoint postOrder (op : Operation) : list Operation :=
  flat_map
    (fun region : Region =>
       flat_map (fun block : Block => flat_map postOrder (getOperations block))
         region)
    (getRegions op)
  ++ [op].

Definition nestedOperations (op : Operation) : list Operation :=
  flat_map
    (fun region : Region =>
       flat_map (fun block : Block => flat_map postOrder (getOperations block))
         region)
    (getRegions op).

(* ================================================================= *)
(** ** Uses *)

(** A use of a value: the operation that consumes it and the position of the
    operand that holds it. *)
Record OpOperand : Type := mkOpOperand {
  getOwner : Operation;
  getOperandNumber : nat
}.

(** The operand slots of [owner], from position [i] on, that hold [v]. *)
Fixpoint operandUses (owner : Operation) (v : Value) (i : nat)
    (operands : list Value) : list OpOperand :=
  match operands with
  | [] => []
  | x :: rest =>
      (if Value_eqb x v then [mkOpOperand owner i] else [])
        ++ operandUses owner v (S i) rest
  end.

Definition usesBy (v : Value) (owner : Operation) : list OpOperand :=
  operandUses owner v 0 (getOperands owner).

(** Every operand slot of the whole program that holds [v]. *)
Definition operandSlots (program : Operation) (v : Value) : list OpOperand :=
  flat_map (usesBy v) (postOrder program).

(** [llvm::hasNItemsOrLess(range, N)]: steps through at most [N] items. *)
Fixpoint hasNItemsOrLess (A : Type) (range : list A) (N : nat) : bool :=
  match N with
  | 0 => match range with [] => true | _ :: _ => false end
  | S N' =>
      match range with
      | [] => true
      | _ :: range' => hasNItemsOrLess range' N'
      end
  end.

(* ================================================================= *)
(** ** Diagnostics *)

Inductive Severity : Type :=
| SeverityNote | SeverityWarning | SeverityError | SeverityRemark.

Record DiagnosticNote : Type := mkNote {
  noteLoc : Location;
  noteMessage : string
}.

Record Diagnostic : Type := mkDiagnostic {
  severity : Severity;
  diagLoc : Location;
  message : string;
  notes : list DiagnosticNote
}.

(** [op->emitError() << msg]: an error at the operation's location.  The
    diagnostic starts without notes: the host's optional note that prints
    the operation itself is a setting of the host context and is left out. *)
Definition emitError (op : Operation) (msg : string) : Diagnostic :=
  mkDiagnostic SeverityError (getLoc op) msg [].

(** [diag.attachNote(loc) << msg]: the note goes after the notes already
    attached. *)
Definition attachNote (diag : Diagnostic) (loc : Location) (msg : string)
  : Diagnostic :=
  mkDiagnostic (severity diag) (diagLoc diag) (message diag)
    (notes diag ++ [mkNote loc msg]).

(** An unsigned number streamed into a diagnostic prints in decimal. *)
Definition decimal (n : nat) : string :=
  NilEmpty.string_of_uint (Nat.to_uint n).

(* ================================================================= *)
(** ** State: the program and the diagnostic engine *)

(** What the verifier can read or write: the whole program the walked
    operation lives in, and the diagnostics reported so far (oldest first). *)
Record State : Type := mkState {
  program : Operation;
  diagnostics : list Diagnostic
}.

Definition M (A : Type) : Type := State -> A * State.

Definition ret (A : Type) (a : A) : M A := fun s => (a, s).

Definition bind (A B : Type) (m : M A) (k : A -> M B) : M B :=
  fun s => let (a, s') := m s in k a s'.

Notation "x <- m ;; k" := (bind m (fun x => k))
  (at level 61, m at next level, right associativity).
Notation "m ;;; k" := (bind m (fun _ => k))
  (at level 61, right associativity).

(** An in-flight diagnostic is reported when it goes out of scope. *)
Definition report (diag : Diagnostic) : M unit :=
  fun s => (tt, mkState (program s) (diagnostics s ++ [diag])).

(* ================================================================= *)
(** ** The operation walker *)

Inductive WalkResult : Type := Interrupt | Advance | Skip.

Definition wasInterrupted (r : WalkResult) : bool :=
  match r with Interrupt => true | _ => false end.

Definition wasSkipped (r : WalkResult) : bool :=
  match r with Skip => true | _ => false end.

Inductive WalkOrder : Type := PreOrder | PostOrder.

(** A loop over a range whose body may interrupt the walk:
    [for (x : range) if (body(x).wasInterrupted()) return interrupt();]. *)
Section WalkRange.
Variable A : Type.
Variable body : A -> M WalkResult.

Fixpoint walkRange (range : list A) : M WalkResult :=
  match range with
  | [] => ret Advance
  | x :: range' =>
      r <- body x ;;
      if wasInterrupted r then ret Interrupt else walkRange range'
  end.
End WalkRange.

(** The host's interruptible walk of an operation: the callback runs on the
    operation before (pre-order) or after (post-order) the operations nested
    in its regions; an interrupt stops the walk at once. *)
Fixpoint walk (order : WalkOrder) (callback : Operation -> M WalkResult)
    (op : Operation) {struct op} : M WalkResult :=
  pre <- match order with
         | PreOrder => callback op
         | PostOrder => ret Advance
         end ;;
  if wasSkipped pre then ret Advance
  else if wasInterrupted pre then ret Interrupt
  else
    nested <- walkRange
                (fun region : Region =>
                   walkRange
                     (fun block : Block =>
                        walkRange (walk order callback) (getOperations block))
                     region)
                (getRegions op) ;;
    if wasInterrupted nested then ret Interrupt
    else match order with
         | PostOrder => callback op
         | PreOrder => ret Advance
         end.

(** Two runs of a walk agree when they end in the same state and both were
    interrupted or both were not. *)
Definition agree (a b : WalkResult * State) : Prop :=
  wasInterrupted (fst a) = wasInterrupted (fst b) /\ snd a = snd b.

Ltac monad := unfold bind, ret in *; simpl in *.

Inductive LogicalResult : Type := success | failure.

(** [failure(bool isFailure)]. *)
Definition failureIf (isFailure : bool) : LogicalResult :=
  if isFailure then failure else success.

(* ================================================================= *)
(** ** [ScopeOp::getSuccessorRegions] *)

(** [Optional<unsigned>] in a condition: whether a value is present. *)
Definition hasValue (index : option N) : bool :=
  match index with Some _ => true | None => false end.

(** A constant operand attribute handed to the query by the host. *)
Inductive Attribute : Type :=
| NullAttr
| IntegerAttr (value : Z)
| StringAttr (value : string).

(** A pointer to a region: the operation that owns it and its position. *)
Record RegionRef : Type := mkRegionRef {
  regionOwner : OpId;
  regionNumber : nat
}.

(** A successor of a region-branching operation: the region that control
    enters, or no region when control returns to the parent operation, with
    the values that receive the forwarded operands. *)
Record RegionSuccessor : Type := mkRegionSuccessor {
  getSuccessor : option RegionRef;
  getSuccessorInputs : list Value
}.

(** [RegionSuccessor(Region *region)]: a successor that is a region; no
    inputs are given. *)
Definition RegionSuccessor_ofRegion (region : RegionRef) : RegionSuccessor :=
  mkRegionSuccessor (Some region) [].

(** [RegionSuccessor(Operation::result_range results)]: the parent operation
    as successor, its results as inputs. *)
Definition RegionSuccessor_ofResults (results : list OpResult)
  : RegionSuccessor :=
  mkRegionSuccessor None (map ResultValue results).

(** The scoping construct: an operation whose only region is its body and
    whose results are forwarded on exit. *)
Record ScopeOp : Type := mkScopeOp { scopeOperation : Operation }.

(** [&body()]: the address of region #0 of the operation. *)
Definition body (op : ScopeOp) : RegionRef :=
  mkRegionRef (opId (scopeOperation op)) 0.

Definition ScopeOp_getResults (op : ScopeOp) : list OpResult :=
  getResults (scopeOperation op).

(** [index] is the region control comes from, absent when control comes
    from the parent; [regions] is the vector of the caller that the function
    appends to, returned here as the vector after the call. *)
Definition getSuccessorRegions (op : ScopeOp) (index : option N)
    (operands : list Attribute) (regions : list RegionSuccessor)
  : list RegionSuccessor :=
  if hasValue index
  then regions ++ [RegionSuccessor_ofResults (ScopeOp_getResults op)]
  else regions ++ [RegionSuccessor_ofRegion (body op)].

(* ================================================================= *)
(** ** [verifySequenceOp] *)

(** The sequencing construct, a typed handle on an operation. *)
Record SequenceOp : Type := mkSequenceOp { sequenceOperation : Operation }.

(** The results the post-order walk of [op] reaches, each with the operation
    that produces it, in the order the walk reaches them. *)
Definition visitedResults (op : Operation) : list (Operation * OpResult) :=
  flat_map (fun child => map (pair child) (getResults child)) (postOrder op).

(** [v] is a result of an operation that the walk of [op] visits. *)
Definition producedIn (op : Operation) (v : Value) : Prop :=
  exists child n,
    In child (postOrder op) /\ n < getNumResults child /\
    v = ResultValue (mkOpResult (opId child) n).

(** The note the verifier attaches for a use. *)
Definition useNote (use : OpOperand) : DiagnosticNote :=
  mkNote (getLoc (getOwner use))
    ("used here as operand #" ++ decimal (getOperandNumber use)).

(** The diagnostic of a result of [child] with uses [uses]. *)
Definition multiUseDiagnostic (child : Operation) (result : OpResult)
    (uses : list OpOperand) : Diagnostic :=
  fold_left
    (fun diag use =>
       attachNote diag (getLoc (getOwner use))
         ("used here as operand #" ++ decimal (getOperandNumber use)))
    uses
    (emitError child
       ("result #" ++ decimal (getResultNumber result)
          ++ " has more than one use")).

(* ================================================================= *)
(** ** Sample programs *)

Module Samples.

Definition at_line (line : nat) : Location :=
  FileLineColLoc "transform.mlir" line 3.

(** An operation without regions. *)
Definition leaf (id : OpId) (name : string) (line : nat)
    (operands : list Value) (numResults : nat) : Operation :=
  mkOperation id name (at_line line) operands numResults [].

Definition res (id : OpId) (n : nat) : Value := ResultValue (mkOpResult id n).

(** A sequencing construct with one block of [numArgs] arguments. *)
Definition sequence (id : OpId) (line : nat) (numResults : nat)
    (numArgs : nat) (ops : list Operation) : Operation :=
  mkOperation id "linalg_transform.sequence" (at_line line) [] numResults
    [[mkBlock id numArgs ops]].

(** A top-level operation that holds [ops] in its one block. *)
Definition moduleOp (ops : list Operation) : Operation :=
  mkOperation 0 "builtin.module" (at_line 1) [] 0 [[mkBlock 0 0 ops]].

Definition stateOf (prog : Operation) : State := mkState prog [].

(** The use list as a plain scan of the program gives it. *)
Definition scanOrder (l : list OpOperand) : list OpOperand := l.

(** The use list with the latest use first. *)
Definition latestFirst (l : list OpOperand) : list OpOperand := rev l.

(** Every result is consumed once:
<<
  sequence {
    %a = match          // id 2
    %b = tile %a        // id 3
    vectorize %b        // id 4
  }
>> *)
Definition opA := leaf 2 "linalg_transform.match" 3 [] 1.
Definition opB := leaf 3 "linalg_transform.tile" 4 [res 2 0] 1.
Definition chain : Operation :=
  sequence 1 2 0 0 [opA; opB; leaf 4 "linalg_transform.vectorize" 5 [res 3 0] 0].

(** [%a] is consumed by [tile] as operand #0 and by [fuse] as operand #1:
<<
  sequence {
    %a = match          // id 2
    %b = tile %a        // id 3
    fuse %b, %a         // id 4
  }
>> *)
Definition opC := leaf 4 "linalg_transform.fuse" 5 [res 3 0; res 2 0] 0.
Definition forked : Operation := sequence 1 2 0 0 [opA; opB; opC].

(** Two values are consumed twice, [%a] first in the order of the walk:
<<
  sequence {
    %a = match          // id 2
    %b = match          // id 3
    tile %a             // id 4
    tile %a             // id 5
    fuse %b, %b         // id 6
  }
>> *)
Definition opB2 := leaf 3 "linalg_transform.match" 4 [] 1.
Definition twice : Operation :=
  sequence 1 2 0 0
    [opA; opB2;
     leaf 4 "linalg_transform.tile" 5 [res 2 0] 0;
     leaf 5 "linalg_transform.tile" 6 [res 2 0] 0;
     leaf 6 "linalg_transform.fuse" 7 [res 3 0; res 3 0] 0].

(** A result with one use in the sequence and one use after it:
<<
  module {
    sequence {          // id 1
      %a = match        // id 2
      %b = tile %a      // id 3
    }
    print %a            // id 9
  }
>> *)
Definition leaky : Operation := sequence 1 2 0 0 [opA; opB].
Definition printer := leaf 9 "test.print" 7 [res 2 0] 0.
Definition leakyModule : Operation := moduleOp [leaky; printer].

(** The sequence has a result of its own, consumed twice after it:
<<
  module {
    %s = sequence {     // id 1
      %a = match        // id 2
      %b = tile %a      // id 3
    }
    print %s            // id 8
    print %s            // id 9
  }
>> *)
Definition yielding : Operation := sequence 1 2 1 0 [opA; opB].
Definition yieldingModule : Operation :=
  moduleOp [yielding; leaf 8 "test.print" 7 [res 1 0] 0;
          leaf 9 "test.print" 8 [res 1 0] 0].

(** A block argument and a value of the enclosing scope, each consumed
    twice in the body:
<<
  module {
    %w = constant       // id 7
    sequence {          // id 1
    ^bb(%arg0):
      %b = tile %arg0, %arg0    // id 3
      fuse %w, %w, %b           // id 4
    }
  }
>> *)
Definition outer := leaf 7 "test.constant" 2 [] 1.
Definition borrowing : Operation :=
  sequence 1 3 0 1
    [leaf 3 "linalg_transform.tile" 4 [BlockArgument 1 0; BlockArgument 1 0] 1;
     leaf 4 "linalg_transform.fuse" 5 [res 7 0; res 7 0; res 3 0] 0].
Definition borrowingModule : Operation := moduleOp [outer; borrowing].

(** A violation nested in an operation that itself has a violation: the
    post-order walk reaches the nested one first.
<<
  sequence {                    // id 1
    %x = scope {                // id 2
      %n = match                // id 3
      tile %n                   // id 4
      tile %n                   // id 5
    }
    fuse %x, %x                 // id 6
  }
>> *)
Definition inner := leaf 3 "linalg_transform.match" 4 [] 1.
Definition holder : Operation :=
  mkOperation 2 "linalg_transform.util.scope" (at_line 3) [] 1
    [[mkBlock 2 0
        [inner;
         leaf 4 "linalg_transform.tile" 5 [res 3 0] 0;
         leaf 5 "linalg_transform.tile" 6 [res 3 0] 0]]].
Definition nestedTwice : Operation :=
  sequence 1 2 0 0
    [holder; leaf 6 "linalg_transform.fuse" 8 [res 2 0; res 2 0] 0].

(** An operation with two results, the second of which is consumed twice:
<<
  sequence {
    %p:2 = match                // id 2
    tile %p#0                   // id 3
    tile %p#1                   // id 4
    fuse %p#1                   // id 5
  }
>> *)
Definition pairOp := leaf 2 "linalg_transform.match" 3 [] 2.
Definition secondTwice : Operation :=
  sequence 1 2 0 0
    [pairOp;
     leaf 3 "linalg_transform.tile" 4 [res 2 0] 0;
     leaf 4 "linalg_transform.tile" 5 [res 2 1] 0;
     leaf 5 "linalg_transform.fuse" 6 [res 2 1] 0].

(** A sequence nested in a sequence, every result consumed once:
<<
  sequence {                    // id 1
    %a = match                  // id 2
    sequence {                  // id 5
      %b = match                // id 6
      tile %b                   // id 7
    }
    tile %a                     // id 8
  }
>> *)
Definition innerSequence : Operation :=
  sequence 5 4 0 0
    [leaf 6 "linalg_transform.match" 5 [] 1;
     leaf 7 "linalg_transform.tile" 6 [res 6 0] 0].
Definition nestedChain : Operation :=
  sequence 1 2 0 0
    [opA; innerSequence; leaf 8 "linalg_transform.tile" 8 [res 2 0] 0].

(** The operation of [twice] that consumes [%b] in both its operands. *)
Definition fuseTwice := leaf 6 "linalg_transform.fuse" 7 [res 3 0; res 3 0] 0.

(** [forked] in a module, with one more consumer of [%a] after it. *)
Definition forkedModule : Operation := moduleOp [forked; printer].

(** A diagnostic reported before the verifier runs. *)
Definition earlier : Diagnostic :=
  mkDiagnostic SeverityWarning (at_line 1) "unused option" [].

End Samples.

Section Verifier.

(** The host keeps the uses of a value in a list whose order follows the
    history of the program (the order in which operands were set), not
    its shape.  The order is left open: the list is the operand slots
    that hold the value, arranged by [useListOrder], which the properties
    below take to be a permutation. *)
Variable useListOrder : list OpOperand -> list OpOperand.
Hypothesis useListOrder_perm : forall l, Permutation (useListOrder l) l.

(** [value.getUses()]: every use of the value in the whole program. *)
Definition getUses (v : Value) : M (list OpOperand) :=
  fun s => (useListOrder (operandSlots (program s) v), s).

(** The loop of the callback over the results of [child]. *)
Fixpoint checkResults (child : Operation) (results : list OpResult)
  : M WalkResult :=
  match results with
  | [] => ret Advance
  | result :: rest =>
      uses <- getUses result ;;
      if hasNItemsOrLess uses 1 then checkResults child rest
      else
        uses' <- getUses result ;;
        report (multiUseDiagnostic child result uses') ;;;
        ret Interrupt
  end.

Definition callback (child : Operation) : M WalkResult :=
  checkResults child (getResults child).

Definition verifySequenceOp (op : SequenceOp) : M LogicalResult :=
  result <- walk PostOrder callback (sequenceOperation op) ;;
  ret (failureIf (wasInterrupted result)).

(** *** Vocabulary of the properties *)

(** The use list of a value in state [s]. *)
Definition usesOf (s : State) (v : Value) : list OpOperand :=
  fst (getUses v s).

Definition multiplyUsed (s : State) (r : OpResult) : bool :=
  negb (length (usesOf s r) <=? 1).

(** The first result with more than one use, in the order of the walk. *)
Definition firstViolation (s : State) (op : Operation)
  : option (Operation * OpResult) :=
  find (fun cr => multiplyUsed s (snd cr)) (visitedResults op).

(** What the verifier answers and the state it leaves, given the first
    violation of the walk. *)
Definition outcomeOf (s : State) (v : option (Operation * OpResult))
  : LogicalResult * State :=
  match v with
  | None => (success, s)
  | Some (child, r) =>
      (failure,
       mkState (program s)
         (diagnostics s ++ [multiUseDiagnostic child r (usesOf s r)]))
  end.

(* ================================================================= *)
(** * Properties *)

(** ** The framework pieces *)

Lemma hasNItemsOrLess_length (A : Type) (range : list A) (N : nat) :
  hasNItemsOrLess range N = (length range <=? N).
Proof.
  revert range; induction N as [|N IH]; intros [|x range]; simpl; auto.
Qed.

Lemma Value_eqb_refl (v : Value) : Value_eqb v v = true.
Proof.
  destruct v as [[o n]|k n]; simpl; now rewrite !Nat.eqb_refl.
Qed.


Lemma postOrder_nested (op : Operation) :
  postOrder op = nestedOperations op ++ [op].
Proof. destruct op; reflexivity. Qed.

Lemma postOrder_self (op : Operation) : In op (postOrder op).
Proof. rewrite postOrder_nested, in_app_iff; right; left; reflexivity. Qed.

(** Attaching notes one by one gives the notes in the order of the uses. *)
Lemma fold_attachNote (f : OpOperand -> DiagnosticNote) (uses : list OpOperand)
    (d : Diagnostic) :
  fold_left (fun diag use => attachNote diag (noteLoc (f use)) (noteMessage (f use)))
    uses d
  = mkDiagnostic (severity d) (diagLoc d) (message d) (notes d ++ map f uses).
Proof.
  revert d; induction uses as [|u uses IH]; intros d; simpl.
  - rewrite app_nil_r; destruct d; reflexivity.
  - rewrite IH; unfold attachNote; simpl.
    rewrite <- app_assoc; simpl.
    destruct (f u); reflexivity.
Qed.

Lemma multiUseDiagnostic_eq (child : Operation) (result : OpResult)
    (uses : list OpOperand) :
  multiUseDiagnostic child result uses
  = mkDiagnostic SeverityError (getLoc child)
      ("result #" ++ decimal (getResultNumber result) ++ " has more than one use")
      (map useNote uses).
Proof.
  unfold multiUseDiagnostic.
  exact (fold_attachNote useNote uses _).
Qed.

(** ** The walker *)

Lemma walkRange_result (A : Type) (f : A -> M WalkResult) (l : list A)
    (s : State) :
  fst (walkRange f l s) = Interrupt \/ fst (walkRange f l s) = Advance.
Proof.
  revert s; induction l as [|x l IH]; intros s; simpl; monad; auto.
  destruct (f x s) as [r s1]; destruct (wasInterrupted r); simpl; auto.
Qed.

Lemma walkRange_app (A : Type) (f : A -> M WalkResult) (l1 l2 : list A)
    (s : State) :
  walkRange f (l1 ++ l2) s
  = (r <- walkRange f l1 ;;
     if wasInterrupted r then ret Interrupt else walkRange f l2) s.
Proof.
  revert s; induction l1 as [|x l1 IH]; intros s; simpl; monad; auto.
  destruct (f x s) as [r s1]; destruct (wasInterrupted r); simpl; auto.
Qed.

(** The body of a range loop matters only through the state it leaves and
    whether it interrupts. *)
Lemma walkRange_agree (A : Type) (f g : A -> M WalkResult) (l : list A) :
  Forall (fun x => forall s, agree (f x s) (g x s)) l ->
  forall s, walkRange f l s = walkRange g l s.
Proof.
  induction 1 as [|x l Hx _ IH]; intros s; simpl; monad; auto.
  destruct (Hx s) as [Hr Hs].
  destruct (f x s) as [r1 s1], (g x s) as [r2 s2]; simpl in *; subst s2.
  rewrite Hr; destruct (wasInterrupted r2); auto.
Qed.

(** A loop over the items of the items is the nest of the two loops. *)
Lemma walkRange_flat_map (A B : Type) (f : B -> M WalkResult)
    (g : A -> list B) (l : list A) (s : State) :
  walkRange f (flat_map g l) s = walkRange (fun x => walkRange f (g x)) l s.
Proof.
  revert s; induction l as [|x l IH]; intros s; simpl; auto.
  rewrite walkRange_app; monad.
  pose proof (walkRange_result f (g x) s) as Hres.
  destruct (walkRange f (g x) s) as [r s1]; simpl in *.
  destruct Hres as [-> | ->]; simpl; auto.
Qed.

(** The post-order walk runs the callback on the operations of [postOrder],
    in that order, up to the first interrupt. *)
Lemma walk_postOrder (cb : Operation -> M WalkResult) (op : Operation) :
  forall s, agree (walk PostOrder cb op s) (walkRange cb (postOrder op) s).
Proof.
  induction op as [id name loc operands n regions IH] using Operation_ind.
  intros s.
  assert (Hnested :
    forall s0,
      walkRange
        (fun region : Region =>
           walkRange
             (fun block : Block =>
                walkRange (walk PostOrder cb) (getOperations block))
             region)
        regions s0
      = walkRange cb
          (nestedOperations (mkOperation id name loc operands n regions)) s0).
  { intros s0. unfold nestedOperations; simpl getRegions.
    rewrite walkRange_flat_map.
    apply walkRange_agree.
    eapply Forall_impl; [|exact IH].
    intros region Hregion s1; simpl in Hregion.
    rewrite walkRange_flat_map.
    erewrite walkRange_agree; [split; reflexivity|].
    eapply Forall_impl; [|exact Hregion].
    intros block Hblock s2; simpl in Hblock.
    rewrite walkRange_flat_map.
    erewrite walkRange_agree; [split; reflexivity|exact Hblock]. }
  rewrite postOrder_nested, walkRange_app.
  simpl walk; monad.
  rewrite Hnested.
  pose proof (walkRange_result cb
    (nestedOperations (mkOperation id name loc operands n regions)) s) as Hres.
  destruct (walkRange cb _ s) as [r s1]; simpl in *.
  destruct Hres as [-> | ->]; unfold agree; simpl.
  - split; reflexivity.
  - unfold bind, ret.
    destruct (cb _ s1) as [r2 s2]; simpl.
    destruct (wasInterrupted r2); split; reflexivity.
Qed.

(** ** Lists *)

Lemma find_app (A : Type) (f : A -> bool) (l1 l2 : list A) :
  find f (l1 ++ l2)
  = match find f l1 with Some x => Some x | None => find f l2 end.
Proof.
  induction l1 as [|x l1 IH]; simpl; auto.
  destruct (f x); auto.
Qed.

Lemma find_map_pair (A B : Type) (f : B -> bool) (a : A) (l : list B) :
  find (fun p => f (snd p)) (map (pair a) l) = option_map (pair a) (find f l).
Proof.
  induction l as [|x l IH]; simpl; auto.
  destruct (f x); auto.
Qed.

Lemma find_none_iff (A : Type) (f : A -> bool) (l : list A) :
  find f l = None <-> Forall (fun x => f x = false) l.
Proof.
  induction l as [|x l IH]; simpl.
  - split; auto.
  - destruct (f x) eqn:E.
    + split; [discriminate|]. intros H; inversion H; congruence.
    + rewrite IH; split; [auto|]. intros H; inversion H; auto.
Qed.

(** [find] returns the first item that satisfies the test. *)
Lemma find_first (A : Type) (f : A -> bool) (pre post : list A) (x : A) :
  Forall (fun y => f y = false) pre -> f x = true ->
  find f (pre ++ x :: post) = Some x.
Proof.
  intros Hpre Hx. rewrite find_app.
  apply find_none_iff in Hpre; rewrite Hpre; simpl; now rewrite Hx.
Qed.

Lemma find_exists (A : Type) (f : A -> bool) (l : list A) (x : A) :
  In x l -> f x = true -> exists y, find f l = Some y.
Proof.
  intros Hin Hx. destruct (find f l) as [y|] eqn:E; [eauto|].
  apply find_none_iff in E. rewrite Forall_forall in E.
  specialize (E x Hin); congruence.
Qed.

Lemma two_members_length (A : Type) (l : list A) (x y : A) :
  In x l -> In y l -> x <> y -> 2 <= length l.
Proof.
  destruct l as [|a [|b l]]; simpl; intros Hx Hy Hne; try tauto; [|lia].
  destruct Hx as [<-|[]], Hy as [<-|[]]; congruence.
Qed.

(** ** The tree *)

Lemma postOrder_trans (a b c : Operation) :
  In a (postOrder b) -> In b (postOrder c) -> In a (postOrder c).
Proof.
  intros Hab; revert c.
  induction c as [id name loc operands n regions IH] using Operation_ind.
  rewrite postOrder_nested, in_app_iff.
  intros [Hnested | [<- | []]]; [|exact Hab].
  rewrite in_app_iff; left.
  unfold nestedOperations in *; simpl getRegions in *.
  apply in_flat_map in Hnested as [region [Hregion Hnested]].
  apply in_flat_map in Hnested as [block [Hblock Hnested]].
  apply in_flat_map in Hnested as [o [Ho Hnested]].
  rewrite Forall_forall in IH; specialize (IH region Hregion).
  rewrite Forall_forall in IH; specialize (IH block Hblock).
  rewrite Forall_forall in IH; specialize (IH o Ho Hnested).
  apply in_flat_map; exists region; split; [assumption|].
  apply in_flat_map; exists block; split; [assumption|].
  apply in_flat_map; exists o; split; assumption.
Qed.

Lemma in_getResults (op : Operation) (r : OpResult) :
  In r (getResults op)
  <-> exists n, n < getNumResults op /\ r = mkOpResult (opId op) n.
Proof.
  unfold getResults; rewrite in_map_iff; split.
  - intros [n [<- Hn]]; apply in_seq in Hn; exists n; split; [lia|reflexivity].
  - intros [n [Hn ->]]; exists n; split; [reflexivity|apply in_seq; lia].
Qed.

Lemma in_visitedResults (op child : Operation) (r : OpResult) :
  In (child, r) (visitedResults op)
  <-> In child (postOrder op) /\
      exists n, n < getNumResults child /\ r = mkOpResult (opId child) n.
Proof.
  unfold visitedResults; rewrite in_flat_map; split.
  - intros [c [Hc Hin]]. apply in_map_iff in Hin as [r' [Heq Hr]].
    inversion Heq; subst; split; [assumption|now apply in_getResults].
  - intros [Hc Hr]; exists child; split; [assumption|].
    apply in_map; now apply in_getResults.
Qed.

Lemma visitedResults_nested (op : Operation) :
  visitedResults op
  = flat_map (fun child => map (pair child) (getResults child))
      (nestedOperations op)
    ++ map (pair op) (getResults op).
Proof.
  unfold visitedResults; rewrite postOrder_nested, flat_map_app; simpl.
  now rewrite app_nil_r.
Qed.

(** ** Use lists *)

Lemma in_operandUses (owner : Operation) (v : Value) (operands : list Value)
    (i j : nat) :
  nth_error operands j = Some v ->
  In (mkOpOperand owner (i + j)) (operandUses owner v i operands).
Proof.
  revert i j; induction operands as [|x rest IH]; intros i [|j] H;
    simpl in *; try discriminate.
  - inversion H; subst; rewrite Value_eqb_refl, Nat.add_0_r; left; reflexivity.
  - apply in_or_app; right.
    replace (i + S j) with (S i + j) by lia; now apply IH.
Qed.

Lemma in_operandSlots (prog owner : Operation) (v : Value) (j : nat) :
  In owner (postOrder prog) -> nth_error (getOperands owner) j = Some v ->
  In (mkOpOperand owner j) (operandSlots prog v).
Proof.
  intros Hin Hj; unfold operandSlots; apply in_flat_map.
  exists owner; split; [assumption|].
  exact (in_operandUses owner (getOperands owner) 0 j Hj).
Qed.

(** ** The verifier, characterised *)


(** Use lists are read off the program alone. *)
Lemma usesOf_program (s s' : State) (v : Value) :
  program s = program s' -> usesOf s v = usesOf s' v.
Proof. unfold usesOf, getUses; simpl; now intros ->. Qed.

Lemma multiplyUsed_true (s : State) (r : OpResult) :
  multiplyUsed s r = true <-> 2 <= length (usesOf s r).
Proof.
  unfold multiplyUsed; rewrite negb_true_iff, Nat.leb_gt; lia.
Qed.

Lemma multiplyUsed_false (s : State) (r : OpResult) :
  multiplyUsed s r = false <-> length (usesOf s r) <= 1.
Proof.
  unfold multiplyUsed; rewrite negb_false_iff, Nat.leb_le; lia.
Qed.

(** The loop over the results of one operation stops at its first result
    with more than one use. *)
Lemma checkResults_find (child : Operation) (results : list OpResult)
    (s : State) :
  checkResults child results s
  = match find (multiplyUsed s) results with
    | None => (Advance, s)
    | Some r =>
        (Interrupt,
         mkState (program s)
           (diagnostics s ++ [multiUseDiagnostic child r (usesOf s r)]))
    end.
Proof.
  induction results as [|r rest IH]; simpl; auto.
  unfold bind, getUses, multiplyUsed, usesOf, getUses; simpl.
  rewrite hasNItemsOrLess_length.
  destruct (length _ <=? 1); simpl; auto.
Qed.

Lemma walkRange_callback (ops : list Operation) (s : State) :
  walkRange callback ops s
  = match find (fun cr => multiplyUsed s (snd cr))
            (flat_map (fun child => map (pair child) (getResults child)) ops)
    with
    | None => (Advance, s)
    | Some (child, r) =>
        (Interrupt,
         mkState (program s)
           (diagnostics s ++ [multiUseDiagnostic child r (usesOf s r)]))
    end.
Proof.
  induction ops as [|child ops IH]; simpl; auto.
  unfold bind, callback at 1. rewrite checkResults_find, find_app, find_map_pair.
  destruct (find (multiplyUsed s) (getResults child)); simpl; auto.
Qed.

(** The verifier fails exactly when the walk meets a result with more than
    one use, and then reports the first one it meets. *)
Lemma verifySequenceOp_outcome (op : SequenceOp) (s : State) :
  verifySequenceOp op s = outcomeOf s (firstViolation s (sequenceOperation op)).
Proof.
  unfold verifySequenceOp, bind, ret.
  destruct (walk_postOrder callback (sequenceOperation op) s) as [Hr Hs].
  rewrite walkRange_callback in Hr, Hs.
  destruct (walk PostOrder callback (sequenceOperation op) s) as [r s'].
  simpl in Hr, Hs; subst s'; rewrite Hr.
  unfold firstViolation, visitedResults.
  destruct (find _ _) as [[child res]|]; reflexivity.
Qed.

Lemma usesOf_slots (s : State) (v : Value) :
  Permutation (usesOf s v) (operandSlots (program s) v).
Proof. unfold usesOf, getUses; simpl; apply useListOrder_perm. Qed.

Lemma firstViolation_program (s s' : State) (op : Operation) :
  program s = program s' -> firstViolation s op = firstViolation s' op.
Proof.
  intros H; unfold firstViolation.
  induction (visitedResults op) as [|[c r] l IH]; simpl; auto.
  unfold multiplyUsed at 1 3; rewrite (usesOf_program s s' _ H), IH.
  reflexivity.
Qed.

(** The verifier succeeds, and reports nothing, when every result the walk
    checks has at most one use. *)
Lemma verifier_clean (op : SequenceOp) (s : State) :
  Forall (fun cr : Operation * OpResult => length (usesOf s (snd cr)) <= 1)
    (visitedResults (sequenceOperation op)) ->
  verifySequenceOp op s = (success, s).
Proof.
  intros Hclean. rewrite verifySequenceOp_outcome.
  assert (E : firstViolation s (sequenceOperation op) = None);
    [|rewrite E; reflexivity].
  apply find_none_iff. eapply Forall_impl; [|exact Hclean].
  intros cr; apply multiplyUsed_false.
Qed.

(** The verifier fails when a result the walk checks has two uses or more. *)
Lemma verifier_violation (op : SequenceOp) (s : State) (child : Operation)
    (n : nat) :
  In child (postOrder (sequenceOperation op)) ->
  n < getNumResults child ->
  2 <= length (usesOf s (mkOpResult (opId child) n)) ->
  fst (verifySequenceOp op s) = failure.
Proof.
  intros Hin Hn Hlen.
  destruct (find_exists (fun cr => multiplyUsed s (snd cr))
              (visitedResults (sequenceOperation op))
              (child, mkOpResult (opId child) n)) as [[c r] E].
  { apply in_visitedResults; eauto. }
  { now apply multiplyUsed_true. }
  rewrite verifySequenceOp_outcome; unfold firstViolation; rewrite E.
  reflexivity.
Qed.

(** ** The claims on the verifier *)

(** C1. When no result of an operation that the walk visits has more than
    one use, the verifier returns success; it reports nothing and leaves
    the state as it was. *)
Theorem verifySequenceOp_single_use_success (op : SequenceOp) (s : State) :
  (forall child n,
      In child (postOrder (sequenceOperation op)) ->
      n < getNumResults child ->
      length (usesOf s (mkOpResult (opId child) n)) <= 1) ->
  verifySequenceOp op s = (success, s).
Proof.
  intros Hclean. apply verifier_clean, Forall_forall.
  intros [child r] Hin; simpl.
  apply in_visitedResults in Hin as [Hchild [n [Hn ->]]]; auto.
Qed.


(** C3. When the results that the walk checks are, in the order of the walk,
    some results with at most one use, then a result with two or more uses,
    then further results of which at least one also has two or more uses,
    the verifier fails and reports one diagnostic only, the one of the first
    of them; nothing is reported for a later one. *)
Theorem verifySequenceOp_first_violation_only (op : SequenceOp) (s : State)
    (pre post : list (Operation * OpResult)) (child : Operation)
    (r : OpResult) :
  visitedResults (sequenceOperation op) = pre ++ (child, r) :: post ->
  Forall (fun cr : Operation * OpResult => length (usesOf s (snd cr)) <= 1)
    pre ->
  2 <= length (usesOf s r) ->
  Exists (fun cr : Operation * OpResult => 2 <= length (usesOf s (snd cr)))
    post ->
  verifySequenceOp op s
  = (failure,
     mkState (program s)
       (diagnostics s
          ++ [mkDiagnostic SeverityError (getLoc child)
                ("result #" ++ decimal (getResultNumber r)
                   ++ " has more than one use")
                (map useNote (usesOf s r))])).
Proof.
  intros Hsplit Hpre Hr _.
  rewrite verifySequenceOp_outcome; unfold firstViolation; rewrite Hsplit.
  rewrite find_first; unfold outcomeOf.
  - now rewrite multiUseDiagnostic_eq.
  - eapply Forall_impl; [|exact Hpre]. intros cr; apply multiplyUsed_false.
  - now apply multiplyUsed_true.
Qed.

(** C6. The verifier leaves the program as it found it, and a second run,
    from the state the first run left, answers as the first run did. *)
Theorem verifySequenceOp_frame (op : SequenceOp) (s : State) :
  program (snd (verifySequenceOp op s)) = program s /\
  fst (verifySequenceOp op (snd (verifySequenceOp op s)))
  = fst (verifySequenceOp op s).
Proof.
  assert (Hprog : program (snd (verifySequenceOp op s)) = program s).
  { rewrite verifySequenceOp_outcome.
    destruct (firstViolation s (sequenceOperation op)) as [[c r]|];
      reflexivity. }
  split; [exact Hprog|].
  remember (snd (verifySequenceOp op s)) as s1 eqn:Es1.
  rewrite (verifySequenceOp_outcome op s1), (verifySequenceOp_outcome op s).
  rewrite (firstViolation_program s1 s _ Hprog).
  destruct (firstViolation s (sequenceOperation op)) as [[c r]|];
    reflexivity.
Qed.

(** C7. The uses the verifier counts are the operand slots of the whole
    program: when a result of a visited operation is an operand of an
    operation inside the walked tree and an operand of an operation of the
    program outside it, the use by the outside operation is in the use list
    the verifier reads, the list is as long as the slots of the whole
    program that hold the result, and the verifier fails. *)
Theorem verifySequenceOp_counts_outside_uses (op : SequenceOp) (s : State)
    (child inside outside : Operation) (n i j : nat) :
  In (sequenceOperation op) (postOrder (program s)) ->
  In child (postOrder (sequenceOperation op)) ->
  n < getNumResults child ->
  In inside (postOrder (sequenceOperation op)) ->
  nth_error (getOperands inside) i
  = Some (ResultValue (mkOpResult (opId child) n)) ->
  In outside (postOrder (program s)) ->
  ~ In outside (postOrder (sequenceOperation op)) ->
  nth_error (getOperands outside) j
  = Some (ResultValue (mkOpResult (opId child) n)) ->
  In (mkOpOperand outside j) (usesOf s (mkOpResult (opId child) n)) /\
  length (usesOf s (mkOpResult (opId child) n))
  = length (operandSlots (program s) (mkOpResult (opId child) n)) /\
  fst (verifySequenceOp op s) = failure.
Proof.
  intros Hseq Hchild Hn Hinside Hi Houtside Hnot Hj.
  pose proof (usesOf_slots s (mkOpResult (opId child) n)) as Hperm.
  assert (Hout : In (mkOpOperand outside j)
                   (usesOf s (mkOpResult (opId child) n))).
  { eapply Permutation_in; [symmetry; exact Hperm|].
    now apply in_operandSlots. }
  assert (Hins : In (mkOpOperand inside i)
                   (usesOf s (mkOpResult (opId child) n))).
  { eapply Permutation_in; [symmetry; exact Hperm|].
    apply in_operandSlots; [|assumption].
    eapply postOrder_trans; eassumption. }
  split; [exact Hout|]. split; [now apply Permutation_length|].
  apply verifier_violation with (child := child) (n := n); auto.
  eapply two_members_length; [exact Hins|exact Hout|].
  intros Heq; apply Hnot; inversion Heq; subst; assumption.
Qed.

(** C8. The walk includes the operation it starts from: when a result of
    the sequencing construct itself has two uses or more, the verifier
    fails; and when, besides, every result of the operations nested in the
    construct has at most one use, the diagnostic it reports is the one of
    a result of the construct, at the location of the construct. *)
Theorem verifySequenceOp_checks_root (op : SequenceOp) (s : State) (n : nat) :
  n < getNumResults (sequenceOperation op) ->
  2 <= length (usesOf s (mkOpResult (opId (sequenceOperation op)) n)) ->
  fst (verifySequenceOp op s) = failure /\
  ((forall child m,
       In child (nestedOperations (sequenceOperation op)) ->
       m < getNumResults child ->
       length (usesOf s (mkOpResult (opId child) m)) <= 1) ->
   exists m,
     m < getNumResults (sequenceOperation op) /\
     2 <= length (usesOf s (mkOpResult (opId (sequenceOperation op)) m)) /\
     verifySequenceOp op s
     = (failure,
        mkState (program s)
          (diagnostics s
             ++ [mkDiagnostic SeverityError (getLoc (sequenceOperation op))
                   ("result #" ++ decimal m ++ " has more than one use")
                   (map useNote
                      (usesOf s
                         (mkOpResult (opId (sequenceOperation op)) m)))]))).
Proof.
  intros Hn Hlen. split.
  { apply verifier_violation with (child := sequenceOperation op) (n := n);
      auto using postOrder_self. }
  intros Hnested.
  destruct (find_exists (multiplyUsed s) (getResults (sequenceOperation op))
              (mkOpResult (opId (sequenceOperation op)) n)) as [r E].
  { apply in_getResults; eauto. }
  { now apply multiplyUsed_true. }
  pose proof (find_some _ _ E) as [Hr Hmulti].
  apply in_getResults in Hr as [m [Hm ->]].
  apply multiplyUsed_true in Hmulti.
  exists m. split; [assumption|]. split; [assumption|].
  rewrite verifySequenceOp_outcome; unfold firstViolation.
  rewrite visitedResults_nested, find_app, find_map_pair, E.
  assert (E0 : find (fun cr => multiplyUsed s (snd cr))
                 (flat_map (fun child => map (pair child) (getResults child))
                    (nestedOperations (sequenceOperation op))) = None).
  { apply find_none_iff, Forall_forall; intros [c r] Hin; simpl.
    apply in_flat_map in Hin as [c' [Hc' Hin]].
    apply in_map_iff in Hin as [r' [Heq Hr']]; inversion Heq; subst.
    apply in_getResults in Hr' as [k [Hk ->]].
    apply multiplyUsed_false; auto. }
  rewrite E0; unfold option_map, outcomeOf.
  now rewrite multiUseDiagnostic_eq.
Qed.

(** C10. Only results of visited operations are checked: when every value
    with two uses or more is something else than a result of a visited
    operation, the verifier succeeds and reports nothing, however often
    such values are used; and a block argument is never a result of a
    visited operation. *)
Theorem verifySequenceOp_ignores_outside_values (op : SequenceOp) (s : State) :
  (forall v, 2 <= length (usesOf s v) -> ~ producedIn (sequenceOperation op) v) ->
  verifySequenceOp op s = (success, s) /\
  (forall block arg,
      ~ producedIn (sequenceOperation op) (BlockArgument block arg)).
Proof.
  intros Houtside. split.
  - apply verifier_clean, Forall_forall. intros [child r] Hin; simpl.
    apply in_visitedResults in Hin as [Hchild [n [Hn ->]]].
    destruct (le_lt_dec (length (usesOf s (mkOpResult (opId child) n))) 1)
      as [Hle|Hgt]; [assumption|].
    exfalso; apply (Houtside (mkOpResult (opId child) n)); [lia|].
    exists child, n; auto.
  - intros block arg [child [n [_ [_ Heq]]]]; discriminate.
Qed.

(* ================================================================= *)
(** ** Further properties of the verifier *)

(** *** Lists and use lists, continued *)

Lemma find_flat_map_some (A B : Type) (f : B -> bool) (g : A -> list B)
    (l : list A) (x : B) :
  find f (flat_map g l) = Some x ->
  exists a, In a l /\ find f (g a) = Some x.
Proof.
  induction l as [|a l IH]; simpl; [discriminate|].
  rewrite find_app. destruct (find f (g a)) as [y|] eqn:E.
  - intros [= <-]; exists a; auto.
  - intros H; destruct (IH H) as [b [Hb Eb]]; exists b; auto.
Qed.

(** The first number of a range that passes a test: the numbers before it
    fail the test. *)
Lemma find_map_seq_least (B : Type) (p : B -> bool) (h : nat -> B)
    (a k : nat) (r : B) :
  find p (map h (seq a k)) = Some r ->
  exists n, a <= n < a + k /\ r = h n /\
            forall m, a <= m < n -> p (h m) = false.
Proof.
  revert a; induction k as [|k IH]; intros a; simpl; [discriminate|].
  destruct (p (h a)) eqn:E.
  - intros [= <-]; exists a; repeat split; lia.
  - intros H; destruct (IH _ H) as [n [Hn [-> Hleast]]].
    exists n; repeat split; try lia.
    intros m Hm. destruct (Nat.eq_dec m a) as [->|Hne]; [assumption|].
    apply Hleast; lia.
Qed.

(** The results checked in the operations nested in [op], region by region
    and block by block. *)
Lemma visitedResults_regions (op : Operation) :
  flat_map (fun child => map (pair child) (getResults child))
    (nestedOperations op)
  = flat_map
      (fun region : Region =>
         flat_map
           (fun block : Block =>
              flat_map visitedResults (getOperations block))
           region)
      (getRegions op).
Proof.
  unfold nestedOperations.
  induction (getRegions op) as [|region regions IHr]; simpl; auto.
  rewrite flat_map_app, IHr; f_equal.
  induction region as [|block region IHb]; simpl; auto.
  rewrite flat_map_app, IHb; f_equal.
  induction (getOperations block) as [|o ops IHo]; simpl; auto.
  rewrite flat_map_app, IHo; reflexivity.
Qed.



(** *** What a failure and a success mean *)

Lemma verifier_failure_inv (op : SequenceOp) (s : State) :
  fst (verifySequenceOp op s) = failure ->
  exists child r, firstViolation s (sequenceOperation op) = Some (child, r).
Proof.
  rewrite verifySequenceOp_outcome.
  destruct (firstViolation s (sequenceOperation op)) as [[child r]|];
    [eauto|discriminate].
Qed.

Lemma verifier_success_inv (op : SequenceOp) (s : State) :
  fst (verifySequenceOp op s) = success ->
  firstViolation s (sequenceOperation op) = None.
Proof.
  rewrite verifySequenceOp_outcome.
  destruct (firstViolation s (sequenceOperation op)) as [[child r]|];
    [discriminate|reflexivity].
Qed.

(** X1. The verifier either succeeds, and then it leaves the state as it
    was and every result of every visited operation has at most one use;
    or it fails, and then it has added exactly one diagnostic, which is the
    one of a result of a visited operation that does have two uses or more.
    It never fails without a diagnostic and never reports a result that is
    used at most once. *)
Theorem verifySequenceOp_verdict (op : SequenceOp) (s : State) :
  (verifySequenceOp op s = (success, s) /\
   forall child n,
     In child (postOrder (sequenceOperation op)) ->
     n < getNumResults child ->
     length (usesOf s (mkOpResult (opId child) n)) <= 1)
  \/
  (exists child n,
     In child (postOrder (sequenceOperation op)) /\
     n < getNumResults child /\
     2 <= length (usesOf s (mkOpResult (opId child) n)) /\
     verifySequenceOp op s
     = (failure,
        mkState (program s)
          (diagnostics s
             ++ [mkDiagnostic SeverityError (getLoc child)
                   ("result #" ++ decimal n ++ " has more than one use")
                   (map useNote (usesOf s (mkOpResult (opId child) n)))]))).
Proof.
  rewrite verifySequenceOp_outcome.
  destruct (firstViolation s (sequenceOperation op)) as [[child r]|] eqn:E.
  - right. pose proof (find_some _ _ E) as [Hin Hmulti]; simpl in Hmulti.
    apply in_visitedResults in Hin as [Hchild [n [Hn ->]]].
    exists child, n. repeat split; auto.
    + now apply multiplyUsed_true.
    + unfold outcomeOf; now rewrite multiUseDiagnostic_eq.
  - left. split; [reflexivity|]. intros child n Hchild Hn.
    apply find_none_iff in E. rewrite Forall_forall in E.
    apply multiplyUsed_false.
    apply (E (child, mkOpResult (opId child) n)).
    apply in_visitedResults; eauto.
Qed.

(** X2. A construct nested in a construct that verifies also verifies:
    when the verifier succeeds on [outer], it succeeds, and reports
    nothing, on every sequencing construct that the walk of [outer]
    visits. *)
Theorem verifySequenceOp_nested_success (outer nested : SequenceOp)
    (s : State) :
  In (sequenceOperation nested) (postOrder (sequenceOperation outer)) ->
  fst (verifySequenceOp outer s) = success ->
  verifySequenceOp nested s = (success, s).
Proof.
  intros Hin Hsuccess. apply verifier_success_inv in Hsuccess.
  apply find_none_iff in Hsuccess. rewrite Forall_forall in Hsuccess.
  apply verifier_clean, Forall_forall. intros [child r] Hchild; simpl.
  apply multiplyUsed_false. apply (Hsuccess (child, r)).
  apply in_visitedResults in Hchild as [Hchild Hr].
  apply in_visitedResults; split; [|assumption].
  eapply postOrder_trans; eassumption.
Qed.

(** X3. Uses are counted by operand, not by consumer: when one operation
    of the program holds a result of a visited operation in two of its
    operands, the verifier fails, and both operands are in the use list. *)
Theorem verifySequenceOp_same_consumer_twice (op : SequenceOp) (s : State)
    (child user : Operation) (n i j : nat) :
  In child (postOrder (sequenceOperation op)) ->
  n < getNumResults child ->
  In user (postOrder (program s)) ->
  i <> j ->
  nth_error (getOperands user) i
  = Some (ResultValue (mkOpResult (opId child) n)) ->
  nth_error (getOperands user) j
  = Some (ResultValue (mkOpResult (opId child) n)) ->
  fst (verifySequenceOp op s) = failure /\
  In (mkOpOperand user i) (usesOf s (mkOpResult (opId child) n)) /\
  In (mkOpOperand user j) (usesOf s (mkOpResult (opId child) n)).
Proof.
  intros Hchild Hn Huser Hij Hi Hj.
  pose proof (usesOf_slots s (mkOpResult (opId child) n)) as Hperm.
  assert (Ui : In (mkOpOperand user i)
                 (usesOf s (mkOpResult (opId child) n))).
  { eapply Permutation_in; [symmetry; exact Hperm|].
    now apply in_operandSlots. }
  assert (Uj : In (mkOpOperand user j)
                 (usesOf s (mkOpResult (opId child) n))).
  { eapply Permutation_in; [symmetry; exact Hperm|].
    now apply in_operandSlots. }
  split; [|split; assumption].
  apply verifier_violation with (child := child) (n := n); auto.
  eapply two_members_length; [exact Ui|exact Uj|].
  intros Heq; apply Hij; now inversion Heq.
Qed.

(** X7. The verdict and the diagnostic that is added depend on the program
    alone: from two states with the same program the verifier returns the
    same result and appends the same diagnostics, each time after the
    diagnostics that were there, which it keeps. *)
Theorem verifySequenceOp_program_only (op : SequenceOp) (s s' : State) :
  program s = program s' ->
  fst (verifySequenceOp op s) = fst (verifySequenceOp op s') /\
  exists added,
    length added <= 1 /\
    diagnostics (snd (verifySequenceOp op s)) = diagnostics s ++ added /\
    diagnostics (snd (verifySequenceOp op s')) = diagnostics s' ++ added.
Proof.
  intros Hprog. rewrite !verifySequenceOp_outcome.
  rewrite (firstViolation_program s s' _ Hprog).
  destruct (firstViolation s' (sequenceOperation op)) as [[child r]|]; simpl.
  - split; [reflexivity|].
    exists [multiUseDiagnostic child r (usesOf s r)]; split; [simpl; lia|].
    split; [reflexivity|]. now rewrite (usesOf_program s s' _ Hprog).
  - split; [reflexivity|]. exists []; split; [simpl; lia|].
    now rewrite !app_nil_r.
Qed.

(** *** Which violation is reported *)

(** X4. Of the results of one operation, the lowest-numbered one with two
    uses or more is the one reported: when the verifier fails, the
    diagnostic is the one of result #n of a visited operation, and every
    result of that operation with a number below n has at most one use. *)
Theorem verifySequenceOp_least_result (op : SequenceOp) (s : State) :
  fst (verifySequenceOp op s) = failure ->
  exists child n,
    In child (postOrder (sequenceOperation op)) /\
    n < getNumResults child /\
    verifySequenceOp op s
    = (failure,
       mkState (program s)
         (diagnostics s
            ++ [mkDiagnostic SeverityError (getLoc child)
                  ("result #" ++ decimal n ++ " has more than one use")
                  (map useNote (usesOf s (mkOpResult (opId child) n)))])) /\
    forall m, m < n -> length (usesOf s (mkOpResult (opId child) m)) <= 1.
Proof.
  intros Hfail. destruct (verifier_failure_inv _ _ Hfail) as [child [r E]].
  pose proof E as E'. unfold firstViolation, visitedResults in E'.
  apply find_flat_map_some in E' as [c [Hc Efind]].
  rewrite find_map_pair in Efind.
  destruct (find (multiplyUsed s) (getResults c)) as [r'|] eqn:Er;
    simpl in Efind; [|discriminate].
  injection Efind as -> ->.
  unfold getResults in Er.
  apply find_map_seq_least in Er as [n [Hn [-> Hleast]]].
  exists child, n. split; [assumption|]. split; [lia|]. split.
  - rewrite verifySequenceOp_outcome, E; unfold outcomeOf.
    now rewrite multiUseDiagnostic_eq.
  - intros m Hm. apply multiplyUsed_false, Hleast; lia.
Qed.

(** When the first violation of the walk of [op] is at [child], no result
    of an operation nested in [child] has two uses or more. *)
Lemma firstViolation_nested_clean (s : State) (op : Operation) :
  forall child r,
    find (fun cr => multiplyUsed s (snd cr)) (visitedResults op)
    = Some (child, r) ->
    Forall (fun cr : Operation * OpResult => multiplyUsed s (snd cr) = false)
      (flat_map (fun c => map (pair c) (getResults c))
         (nestedOperations child)).
Proof.
  induction op as [id name loc operands n regions IH] using Operation_ind.
  intros child r. rewrite visitedResults_nested, find_app.
  destruct (find _ (flat_map _ (nestedOperations _))) as [p|] eqn:E.
  - intros [= ->].
    rewrite visitedResults_regions in E; simpl getRegions in E.
    apply find_flat_map_some in E as [region [Hregion E]].
    apply find_flat_map_some in E as [block [Hblock E]].
    apply find_flat_map_some in E as [o [Ho E]].
    rewrite Forall_forall in IH; specialize (IH region Hregion).
    rewrite Forall_forall in IH; specialize (IH block Hblock).
    rewrite Forall_forall in IH; exact (IH o Ho _ _ E).
  - rewrite find_map_pair.
    destruct (find (multiplyUsed s) (getResults _)) as [r'|];
      simpl; [|discriminate].
    intros [= <- <-]. now apply find_none_iff.
Qed.

(** X5. The walk is post-order, so an operation is checked after the
    operations nested in it: when the verifier fails, the diagnostic is the
    one of a visited operation such that no result of an operation nested in
    it has two uses or more.  A violation inside an operation is reported
    rather than one of the operation itself. *)
Theorem verifySequenceOp_innermost_first (op : SequenceOp) (s : State) :
  fst (verifySequenceOp op s) = failure ->
  exists child n,
    In child (postOrder (sequenceOperation op)) /\
    n < getNumResults child /\
    verifySequenceOp op s
    = (failure,
       mkState (program s)
         (diagnostics s
            ++ [mkDiagnostic SeverityError (getLoc child)
                  ("result #" ++ decimal n ++ " has more than one use")
                  (map useNote (usesOf s (mkOpResult (opId child) n)))])) /\
    forall c k,
      In c (nestedOperations child) ->
      k < getNumResults c ->
      length (usesOf s (mkOpResult (opId c) k)) <= 1.
Proof.
  intros Hfail. destruct (verifier_failure_inv _ _ Hfail) as [child [r E]].
  pose proof (find_some _ _ E) as [Hin _].
  apply in_visitedResults in Hin as [Hchild [n [Hn ->]]].
  exists child, n. split; [assumption|]. split; [assumption|]. split.
  - rewrite verifySequenceOp_outcome, E; unfold outcomeOf.
    now rewrite multiUseDiagnostic_eq.
  - intros c k Hc Hk.
    pose proof (@firstViolation_nested_clean s _ _ _ E) as Hclean.
    rewrite Forall_forall in Hclean.
    apply multiplyUsed_false.
    apply (Hclean (c, mkOpResult (opId c) k)).
    apply in_flat_map; exists c; split; [assumption|].
    apply in_map, in_getResults; eauto.
Qed.

(** *** The order of the walk and the verdict *)

(** A range loop whose body, from state [s], either goes on without a
    change of state over items that are all clean, or interrupts over an
    item that is not. *)
Lemma walkRange_verdict (A C : Type) (body : A -> M WalkResult)
    (g : A -> list C) (clean dirty : C -> Prop) (s : State) (l : list A) :
  Forall
    (fun x =>
       (wasInterrupted (fst (body x s)) = false /\ snd (body x s) = s /\
        Forall clean (g x))
       \/ (wasInterrupted (fst (body x s)) = true /\ Exists dirty (g x))) l ->
  (wasInterrupted (fst (walkRange body l s)) = false /\
   snd (walkRange body l s) = s /\ Forall clean (flat_map g l))
  \/ (wasInterrupted (fst (walkRange body l s)) = true /\
      Exists dirty (flat_map g l)).
Proof.
  induction 1 as [|x l Hx _ IH]; simpl.
  - left; repeat split; constructor.
  - unfold bind. destruct (body x s) as [r s1]; simpl in Hx.
    destruct Hx as [[Hr [-> Hclean]] | [Hr Hdirty]]; rewrite Hr.
    + destruct IH as [[Hr' [Hs' Hclean']] | [Hr' Hdirty']].
      * left; repeat split; auto. apply Forall_app; auto.
      * right; split; auto. apply Exists_app; auto.
    + right; split; [reflexivity|]. apply Exists_app; auto.
Qed.

(** The callback on one operation: it never asks to skip. *)
Lemma callback_verdict (child : Operation) (s : State) :
  (fst (callback child s) = Advance /\ snd (callback child s) = s /\
   Forall (fun cr : Operation * OpResult => length (usesOf s (snd cr)) <= 1)
     (map (pair child) (getResults child)))
  \/ (fst (callback child s) = Interrupt /\
      Exists (fun cr : Operation * OpResult =>
                2 <= length (usesOf s (snd cr)))
        (map (pair child) (getResults child))).
Proof.
  unfold callback; rewrite checkResults_find.
  destruct (find (multiplyUsed s) (getResults child)) as [r|] eqn:E.
  - right; split; [reflexivity|].
    apply find_some in E as [Hin Hr]. apply Exists_exists.
    exists (child, r); split; [now apply in_map|].
    now apply multiplyUsed_true.
  - left; repeat split. apply find_none_iff in E.
    apply Forall_map; simpl.
    eapply Forall_impl; [|exact E]. intros r; apply multiplyUsed_false.
Qed.

(** In either order, the walk is interrupted exactly when a result it
    checks has two uses or more; otherwise it leaves the state as it was. *)
Lemma walk_verdict (order : WalkOrder) (op : Operation) :
  forall s,
    (wasInterrupted (fst (walk order callback op s)) = false /\
     snd (walk order callback op s) = s /\
     Forall (fun cr : Operation * OpResult => length (usesOf s (snd cr)) <= 1)
       (visitedResults op))
    \/ (wasInterrupted (fst (walk order callback op s)) = true /\
        Exists (fun cr : Operation * OpResult =>
                  2 <= length (usesOf s (snd cr)))
          (visitedResults op)).
Proof.
  induction op as [id name loc operands n regions IH] using Operation_ind.
  intros s.
  set (op := mkOperation id name loc operands n regions) in *.
  set (clean := fun cr : Operation * OpResult =>
                  length (usesOf s (snd cr)) <= 1).
  set (dirty := fun cr : Operation * OpResult =>
                  2 <= length (usesOf s (snd cr))).
  assert (Hnested :
    (wasInterrupted
       (fst (walkRange
               (fun region : Region =>
                  walkRange
                    (fun block : Block =>
                       walkRange (walk order callback) (getOperations block))
                    region) regions s)) = false /\
     snd (walkRange
            (fun region : Region =>
               walkRange
                 (fun block : Block =>
                    walkRange (walk order callback) (getOperations block))
                 region) regions s) = s /\
     Forall clean
       (flat_map (fun c => map (pair c) (getResults c))
          (nestedOperations op)))
    \/ (wasInterrupted
          (fst (walkRange
                  (fun region : Region =>
                     walkRange
                       (fun block : Block =>
                          walkRange (walk order callback)
                            (getOperations block))
                       region) regions s)) = true /\
        Exists dirty
          (flat_map (fun c => map (pair c) (getResults c))
             (nestedOperations op)))).
  { rewrite visitedResults_regions; simpl getRegions.
    apply walkRange_verdict.
    eapply Forall_impl; [|exact IH]. intros region Hregion.
    apply walkRange_verdict.
    eapply Forall_impl; [|exact Hregion]. intros block Hblock.
    apply walkRange_verdict.
    eapply Forall_impl; [|exact Hblock]. intros o Ho. apply Ho. }
  rewrite visitedResults_nested.
  pose proof (callback_verdict op s) as Hself.
  fold clean dirty in Hself.
  destruct order; simpl walk; unfold bind, ret.
  - (* pre-order: the operation, then what is nested in it *)
    fold op. destruct (callback op s) as [r s1]; simpl in Hself.
    destruct Hself as [[-> [-> Hclean]] | [-> Hdirty]];
      cbn [wasSkipped wasInterrupted].
    + match goal with
      | |- context [walkRange ?f regions s] =>
          destruct (walkRange f regions s) as [r2 s2]
      end.
      simpl in Hnested.
      destruct Hnested as [[Hr [-> Hclean']] | [Hr Hdirty']]; rewrite Hr;
        simpl.
      * left; repeat split. apply Forall_app; auto.
      * right; split; [reflexivity|]. apply Exists_app; auto.
    + right; split; [reflexivity|]. apply Exists_app; auto.
  - (* post-order: what is nested in the operation, then the operation *)
    fold op. cbn [wasSkipped wasInterrupted].
    match goal with
    | |- context [walkRange ?f regions s] =>
        destruct (walkRange f regions s) as [r2 s2]
    end.
    simpl in Hnested.
    destruct Hnested as [[Hr [-> Hclean']] | [Hr Hdirty']]; rewrite Hr;
      simpl.
    + destruct (callback op s) as [r s1]; simpl in Hself.
      destruct Hself as [[-> [-> Hclean]] | [-> Hdirty]]; simpl.
      * left; repeat split. apply Forall_app; auto.
      * right; split; [reflexivity|]. apply Exists_app; auto.
    + right; split; [reflexivity|]. apply Exists_app; auto.
Qed.

(** X6. The verdict does not hang on the order of the walk: run in
    pre-order or in post-order, the walk with the callback of the verifier
    is interrupted in the same cases, so that the result is the one the
    verifier returns; only the violation that is reported can differ. *)
Theorem verifySequenceOp_order_independent (order : WalkOrder)
    (op : SequenceOp) (s : State) :
  failureIf
    (wasInterrupted (fst (walk order callback (sequenceOperation op) s)))
  = fst (verifySequenceOp op s).
Proof.
  rewrite verifySequenceOp_outcome.
  destruct (walk_verdict order (sequenceOperation op) s)
    as [[Hr [_ Hclean]] | [Hr Hdirty]]; rewrite Hr; simpl.
  - assert (E : firstViolation s (sequenceOperation op) = None);
      [|rewrite E; reflexivity].
    apply find_none_iff. eapply Forall_impl; [|exact Hclean].
    intros cr; apply multiplyUsed_false.
  - apply Exists_exists in Hdirty as [cr [Hin Hcr]].
    destruct (find_exists (fun cr => multiplyUsed s (snd cr))
                (visitedResults (sequenceOperation op)) cr Hin)
      as [[child r] E].
    { now apply multiplyUsed_true. }
    unfold firstViolation; rewrite E; reflexivity.
Qed.

(** *** The notes *)


(** *** The program around the construct *)

Lemma infix_flat_map (A B : Type) (g : A -> list B) (l : list A) (x : A)
    (m : list B) :
  In x l ->
  (exists pre post, g x = pre ++ m ++ post) ->
  exists pre post, flat_map g l = pre ++ m ++ post.
Proof.
  intros Hin [pre [post E]].
  apply in_split in Hin as [l1 [l2 ->]].
  rewrite flat_map_app; simpl; rewrite E.
  exists (flat_map g l1 ++ pre), (post ++ flat_map g l2).
  now rewrite <- !app_assoc.
Qed.

(** The operations of a nested operation lie together in the order of the
    walk of the operation that holds it. *)
Lemma postOrder_infix (a b : Operation) :
  In a (postOrder b) ->
  exists pre post, postOrder b = pre ++ postOrder a ++ post.
Proof.
  induction b as [id name loc operands n regions IH] using Operation_ind.
  rewrite postOrder_nested, in_app_iff.
  intros [Hnested | [<- | []]].
  - unfold nestedOperations in *; simpl getRegions in *.
    apply in_flat_map in Hnested as [region [Hregion Hnested]].
    apply in_flat_map in Hnested as [block [Hblock Hnested]].
    apply in_flat_map in Hnested as [o [Ho Hnested]].
    rewrite Forall_forall in IH; specialize (IH region Hregion).
    rewrite Forall_forall in IH; specialize (IH block Hblock).
    rewrite Forall_forall in IH; specialize (IH o Ho Hnested).
    destruct (@infix_flat_map _ _
                (fun region : Region =>
                   flat_map
                     (fun block : Block =>
                        flat_map postOrder (getOperations block))
                     region)
                regions region (postOrder a) Hregion)
      as [pre [post E]].
    { apply infix_flat_map with (x := block); [assumption|].
      apply infix_flat_map with (x := o); assumption. }
    rewrite E. exists pre, (post ++ [mkOperation id name loc operands n regions]).
    now rewrite <- !app_assoc.
  - exists [], []. now rewrite app_nil_r.
Qed.

Lemma operandSlots_nested_length (a b : Operation) (v : Value) :
  In a (postOrder b) ->
  length (operandSlots a v) <= length (operandSlots b v).
Proof.
  intros Hin. apply postOrder_infix in Hin as [pre [post E]].
  unfold operandSlots; rewrite E, !flat_map_app, !length_app; lia.
Qed.

(** X9. More program around the construct cannot turn a failure into a
    success: when the verifier fails with the uses of a program, it fails
    with the uses of every program that holds that program. *)
Theorem verifySequenceOp_enclosing_program (op : SequenceOp) (s s' : State) :
  In (program s) (postOrder (program s')) ->
  fst (verifySequenceOp op s) = failure ->
  fst (verifySequenceOp op s') = failure.
Proof.
  intros Hin Hfail. destruct (verifier_failure_inv _ _ Hfail) as [child [r E]].
  pose proof (find_some _ _ E) as [Hvisited Hmulti]; simpl in Hmulti.
  apply in_visitedResults in Hvisited as [Hchild [n [Hn ->]]].
  apply multiplyUsed_true in Hmulti.
  apply verifier_violation with (child := child) (n := n); auto.
  pose proof (Permutation_length
                (usesOf_slots s (mkOpResult (opId child) n))) as L.
  pose proof (Permutation_length
                (usesOf_slots s' (mkOpResult (opId child) n))) as L'.
  pose proof (@operandSlots_nested_length _ _
                (ResultValue (mkOpResult (opId child) n)) Hin).
  lia.
Qed.

(** X10. A program whose operations have no operands has no use at all:
    the verifier succeeds on every construct and reports nothing, whatever
    the number of results of the operations. *)
Theorem verifySequenceOp_no_operands (op : SequenceOp) (s : State) :
  (forall o, In o (postOrder (program s)) -> getOperands o = []) ->
  verifySequenceOp op s = (success, s).
Proof.
  intros Hnone. apply verifier_clean, Forall_forall. intros [child r] _; simpl.
  rewrite (Permutation_length (usesOf_slots s r)).
  unfold operandSlots.
  assert (E : flat_map (usesBy r) (postOrder (program s)) = []);
    [|rewrite E; simpl; lia].
  induction (postOrder (program s)) as [|o l IH]; simpl; auto.
  unfold usesBy at 1. rewrite (Hnone o) by (left; reflexivity); simpl.
  apply IH. intros o' Ho'; apply Hnone; right; assumption.
Qed.

End Verifier.

(** ** The claims on the region successors *)

(** C4. The query adds exactly one successor to the vector it is given, so
    that a query on an empty vector returns one entry: without a predecessor
    index the entry is the body, region #0 of the construct, with no inputs;
    with a predecessor index, whatever its value, it is the parent, with
    the results of the construct as inputs. *)
Theorem getSuccessorRegions_single_successor (op : ScopeOp)
    (operands : list Attribute) :
  getSuccessorRegions op None operands []
  = [mkRegionSuccessor
       (Some (mkRegionRef (opId (scopeOperation op)) 0)) []] /\
  (forall i : N,
      getSuccessorRegions op (Some i) operands []
      = [mkRegionSuccessor None
           (map ResultValue (getResults (scopeOperation op)))]) /\
  (forall index regions,
      length (getSuccessorRegions op index operands regions)
      = S (length regions)).
Proof.
  repeat split.
  intros [i|] regions; unfold getSuccessorRegions; simpl;
    rewrite length_app; simpl; lia.
Qed.

(** C5. The query answers on every input: whatever the index, present or
    absent, the operands and the vector, it returns the vector with one
    successor added at its end. *)
Theorem getSuccessorRegions_total (op : ScopeOp) (index : option N)
    (operands : list Attribute) (regions : list RegionSuccessor) :
  exists successor,
    getSuccessorRegions op index operands regions = regions ++ [successor].
Proof.
  destruct index as [i|]; unfold getSuccessorRegions; simpl; eauto.
Qed.

(** C9. Two queries on the same construct and the same vector whose indices
    are both present or both absent return the same successors, whatever
    the values of the indices and whatever the operands. *)
Theorem getSuccessorRegions_index_presence_only (op : ScopeOp)
    (index1 index2 : option N) (operands1 operands2 : list Attribute)
    (regions : list RegionSuccessor) :
  hasValue index1 = hasValue index2 ->
  getSuccessorRegions op index1 operands1 regions
  = getSuccessorRegions op index2 operands2 regions.
Proof.
  intros H; unfold getSuccessorRegions; now rewrite H.
Qed.

(* ================================================================= *)
(** * The properties on the sample programs *)

Import Samples.


Lemma latestFirst_perm (l : list OpOperand) : Permutation (latestFirst l) l.
Proof. symmetry; apply Permutation_rev. Qed.

(** One producer, one consumer: the verifier succeeds and reports nothing. *)
Lemma verifySequenceOp_single_use_success_witness :
  verifySequenceOp latestFirst (mkSequenceOp chain) (stateOf chain)
  = (success, stateOf chain).
Proof.
  apply verifySequenceOp_single_use_success.
  intros child n Hin Hn; simpl in Hin.
  repeat (destruct Hin as [<-|Hin]); try contradiction; simpl in Hn;
    try lia; assert (n = 0) as -> by lia; vm_compute; lia.
Defined.


(** The diagnostic of the program above, as the verifier reports it. *)
Example verifySequenceOp_forked :
  verifySequenceOp scanOrder (mkSequenceOp forked) (stateOf forked)
  = (failure,
     mkState forked
       [mkDiagnostic SeverityError (at_line 3)
          "result #0 has more than one use"
          [mkNote (at_line 4) "used here as operand #0";
           mkNote (at_line 5) "used here as operand #1"]]).
Proof. vm_compute; reflexivity. Qed.

(** With the latest use first, the same notes come in the other order. *)
Example verifySequenceOp_forked_latestFirst :
  verifySequenceOp latestFirst (mkSequenceOp forked) (stateOf forked)
  = (failure,
     mkState forked
       [mkDiagnostic SeverityError (at_line 3)
          "result #0 has more than one use"
          [mkNote (at_line 5) "used here as operand #1";
           mkNote (at_line 4) "used here as operand #0"]]).
Proof. vm_compute; reflexivity. Qed.

(** Two values consumed twice: only the first is reported. *)
Lemma verifySequenceOp_first_violation_only_witness :
  verifySequenceOp scanOrder (mkSequenceOp twice) (stateOf twice)
  = (failure,
     mkState twice
       [mkDiagnostic SeverityError (at_line 3)
          "result #0 has more than one use"
          [mkNote (at_line 5) "used here as operand #0";
           mkNote (at_line 6) "used here as operand #0"]]).
Proof.
  apply (@verifySequenceOp_first_violation_only scanOrder
           (mkSequenceOp twice) (stateOf twice)
           [] [(opB2, mkOpResult 3 0)] opA (mkOpResult 2 0)).
  - reflexivity.
  - constructor.
  - vm_compute; lia.
  - constructor; vm_compute; lia.
Defined.

(** The post-order walk reaches the nested violation before the one of the
    operation that holds it. *)
Example verifySequenceOp_nestedTwice :
  verifySequenceOp scanOrder (mkSequenceOp nestedTwice) (stateOf nestedTwice)
  = (failure,
     mkState nestedTwice
       [mkDiagnostic SeverityError (at_line 4)
          "result #0 has more than one use"
          [mkNote (at_line 5) "used here as operand #0";
           mkNote (at_line 6) "used here as operand #0"]]).
Proof. vm_compute; reflexivity. Qed.

(** A use after the sequence counts: the verifier fails on the sequence in
    its module, and succeeds on the sequence taken alone. *)
Lemma verifySequenceOp_counts_outside_uses_witness :
  fst (verifySequenceOp latestFirst (mkSequenceOp leaky) (stateOf leakyModule))
  = failure.
Proof.
  apply (@verifySequenceOp_counts_outside_uses latestFirst latestFirst_perm
           (mkSequenceOp leaky) (stateOf leakyModule) opA opB printer 0 0 0).
  - simpl; auto.
  - simpl; auto.
  - simpl; lia.
  - simpl; auto.
  - reflexivity.
  - simpl; auto 6.
  - simpl; intros [H|[H|[H|[]]]]; discriminate H.
  - reflexivity.
Defined.

Example verifySequenceOp_leaky_alone :
  verifySequenceOp latestFirst (mkSequenceOp leaky) (stateOf leaky)
  = (success, stateOf leaky).
Proof. vm_compute; reflexivity. Qed.

(** The result of the sequence itself is consumed twice; its body is
    clean. *)
Lemma verifySequenceOp_checks_root_witness :
  fst (verifySequenceOp scanOrder (mkSequenceOp yielding)
         (stateOf yieldingModule))
  = failure.
Proof.
  apply (@verifySequenceOp_checks_root scanOrder (mkSequenceOp yielding)
           (stateOf yieldingModule) 0).
  - simpl; lia.
  - vm_compute; lia.
Defined.

Example verifySequenceOp_yielding :
  verifySequenceOp scanOrder (mkSequenceOp yielding) (stateOf yieldingModule)
  = (failure,
     mkState yieldingModule
       [mkDiagnostic SeverityError (at_line 2)
          "result #0 has more than one use"
          [mkNote (at_line 7) "used here as operand #0";
           mkNote (at_line 8) "used here as operand #0"]]).
Proof. vm_compute; reflexivity. Qed.

(** A block argument and an outer value, each consumed twice in the body:
    the verifier succeeds. *)
Lemma verifySequenceOp_ignores_outside_values_witness :
  length (usesOf latestFirst (stateOf borrowingModule) (BlockArgument 1 0)) = 2
  /\ length (usesOf latestFirst (stateOf borrowingModule) (res 7 0)) = 2
  /\ verifySequenceOp latestFirst (mkSequenceOp borrowing)
       (stateOf borrowingModule)
     = (success, stateOf borrowingModule).
Proof.
  split; [reflexivity|]. split; [reflexivity|].
  apply (@verifySequenceOp_ignores_outside_values latestFirst
           (mkSequenceOp borrowing) (stateOf borrowingModule)).
  intros v Hv (child & n & Hin & Hn & ->); simpl in Hin.
  repeat (destruct Hin as [<-|Hin]); try contradiction; simpl in Hn;
    try lia; assert (n = 0) as -> by lia; vm_compute in Hv; lia.
Defined.

(** Two indices that are present, with different values and operands. *)
Lemma getSuccessorRegions_index_presence_only_witness :
  getSuccessorRegions (mkScopeOp holder) (Some 0%N) [] []
  = getSuccessorRegions (mkScopeOp holder) (Some 7%N) [IntegerAttr 1] [].
Proof.
  apply getSuccessorRegions_index_presence_only; reflexivity.
Defined.

(** The successors of the scope of the samples. *)
Example getSuccessorRegions_holder :
  getSuccessorRegions (mkScopeOp holder) None [] []
  = [mkRegionSuccessor (Some (mkRegionRef 2 0)) []]
  /\ getSuccessorRegions (mkScopeOp holder) (Some 0%N) [] []
     = [mkRegionSuccessor None [res 2 0]].
Proof. split; reflexivity. Qed.

(** ** The further properties on the sample programs *)

(** The sequence nested in a sequence that verifies. *)
Lemma verifySequenceOp_nested_success_witness :
  verifySequenceOp latestFirst (mkSequenceOp innerSequence)
    (stateOf nestedChain)
  = (success, stateOf nestedChain).
Proof.
  apply (@verifySequenceOp_nested_success latestFirst
           (mkSequenceOp nestedChain) (mkSequenceOp innerSequence)
           (stateOf nestedChain)).
  - simpl; auto.
  - vm_compute; reflexivity.
Defined.

(** [fuse %b, %b]: one consumer, two uses. *)
Lemma verifySequenceOp_same_consumer_twice_witness :
  fst (verifySequenceOp latestFirst (mkSequenceOp twice) (stateOf twice))
  = failure
  /\ In (mkOpOperand fuseTwice 0)
       (usesOf latestFirst (stateOf twice) (mkOpResult (opId opB2) 0))
  /\ In (mkOpOperand fuseTwice 1)
       (usesOf latestFirst (stateOf twice) (mkOpResult (opId opB2) 0)).
Proof.
  apply (@verifySequenceOp_same_consumer_twice latestFirst latestFirst_perm
           (mkSequenceOp twice) (stateOf twice) opB2 fuseTwice 0 0 1).
  - simpl; auto.
  - simpl; lia.
  - simpl; auto 6.
  - lia.
  - reflexivity.
  - reflexivity.
Defined.

(** Result #0 of [%p] has one use and result #1 has two: #1 is reported. *)
Lemma verifySequenceOp_least_result_witness :
  exists child n,
    In child (postOrder secondTwice) /\
    n < getNumResults child /\
    verifySequenceOp scanOrder (mkSequenceOp secondTwice) (stateOf secondTwice)
    = (failure,
       mkState secondTwice
         [mkDiagnostic SeverityError (getLoc child)
            ("result #" ++ decimal n ++ " has more than one use")
            (map useNote
               (usesOf scanOrder (stateOf secondTwice)
                  (mkOpResult (opId child) n)))]) /\
    forall m, m < n ->
      length (usesOf scanOrder (stateOf secondTwice)
                (mkOpResult (opId child) m)) <= 1.
Proof.
  apply (@verifySequenceOp_least_result scanOrder (mkSequenceOp secondTwice)
           (stateOf secondTwice)).
  vm_compute; reflexivity.
Defined.

Example verifySequenceOp_secondTwice :
  verifySequenceOp scanOrder (mkSequenceOp secondTwice) (stateOf secondTwice)
  = (failure,
     mkState secondTwice
       [mkDiagnostic SeverityError (at_line 3)
          "result #1 has more than one use"
          [mkNote (at_line 5) "used here as operand #0";
           mkNote (at_line 6) "used here as operand #0"]]).
Proof. vm_compute; reflexivity. Qed.

(** The violation nested in the scope goes first. *)
Lemma verifySequenceOp_innermost_first_witness :
  exists child n,
    In child (postOrder nestedTwice) /\
    n < getNumResults child /\
    verifySequenceOp scanOrder (mkSequenceOp nestedTwice) (stateOf nestedTwice)
    = (failure,
       mkState nestedTwice
         [mkDiagnostic SeverityError (getLoc child)
            ("result #" ++ decimal n ++ " has more than one use")
            (map useNote
               (usesOf scanOrder (stateOf nestedTwice)
                  (mkOpResult (opId child) n)))]) /\
    forall c k,
      In c (nestedOperations child) ->
      k < getNumResults c ->
      length (usesOf scanOrder (stateOf nestedTwice)
                (mkOpResult (opId c) k)) <= 1.
Proof.
  apply (@verifySequenceOp_innermost_first scanOrder
           (mkSequenceOp nestedTwice) (stateOf nestedTwice)).
  vm_compute; reflexivity.
Defined.

(** In pre-order the walk of the same program stops at the scope, whose
    result is consumed twice, before it enters it; the verdict is the
    same. *)
Example walk_preOrder_nestedTwice :
  walk PreOrder (callback scanOrder) nestedTwice (stateOf nestedTwice)
  = (Interrupt,
     mkState nestedTwice
       [mkDiagnostic SeverityError (at_line 3)
          "result #0 has more than one use"
          [mkNote (at_line 8) "used here as operand #0";
           mkNote (at_line 8) "used here as operand #1"]]).
Proof. vm_compute; reflexivity. Qed.

(** The same program, with and without an earlier diagnostic. *)
Lemma verifySequenceOp_program_only_witness :
  fst (verifySequenceOp scanOrder (mkSequenceOp forked) (stateOf forked))
  = fst (verifySequenceOp scanOrder (mkSequenceOp forked)
           (mkState forked [earlier]))
  /\ exists added,
       length added <= 1 /\
       diagnostics
         (snd (verifySequenceOp scanOrder (mkSequenceOp forked)
                 (stateOf forked)))
       = diagnostics (stateOf forked) ++ added /\
       diagnostics
         (snd (verifySequenceOp scanOrder (mkSequenceOp forked)
                 (mkState forked [earlier])))
       = diagnostics (mkState forked [earlier]) ++ added.
Proof.
  apply (@verifySequenceOp_program_only scanOrder (mkSequenceOp forked)
           (stateOf forked) (mkState forked [earlier])).
  reflexivity.
Defined.


(** [forked] fails alone, hence in its module. *)
Lemma verifySequenceOp_enclosing_program_witness :
  fst (verifySequenceOp latestFirst (mkSequenceOp forked)
         (stateOf forkedModule))
  = failure.
Proof.
  apply (@verifySequenceOp_enclosing_program latestFirst latestFirst_perm
           (mkSequenceOp forked) (stateOf forked) (stateOf forkedModule)).
  - simpl; auto 6.
  - vm_compute; reflexivity.
Defined.

(** Two producers and no consumer. *)
Lemma verifySequenceOp_no_operands_witness :
  verifySequenceOp latestFirst
    (mkSequenceOp (sequence 1 2 1 0 [opA; pairOp]))
    (stateOf (sequence 1 2 1 0 [opA; pairOp]))
  = (success, stateOf (sequence 1 2 1 0 [opA; pairOp])).
Proof.
  apply (@verifySequenceOp_no_operands latestFirst latestFirst_perm).
  intros o Hin; simpl in Hin.
  repeat (destruct Hin as [<-|Hin]); try contradiction; reflexivity.
Defined.
